(** * A shallow embedding of the postman POP3 server (components/pop3)

    The wire codec of [proto.rs] (commands, requests, responses), the
    connection handler of [lib.rs] and the accept loop, admission semaphore
    and shutdown coordination of [lib.rs], with proofs about them. *)

From Stdlib Require Import String Ascii List Bool Arith Lia ZArith.
From Stdlib Require Import Numbers.DecimalString.
Import ListNotations.
Open Scope string_scope.

(** ** Rust results

    A Rust call returns [Ok], returns [Err], or panics ([unwrap] on
    [None], an index out of bounds, [unimplemented!()]). *)

Inductive Res (E A : Type) : Type :=
| ROk (a : A)
| RErr (e : E)
| RPanic.
Arguments ROk {E A} a.
Arguments RErr {E A} e.
Arguments RPanic {E A}.

Definition res_bind {E A B} (r : Res E A) (f : A -> Res E B) : Res E B :=
  match r with
  | ROk a => f a
  | RErr e => RErr e
  | RPanic => RPanic
  end.

Notation "x <- r ;; k" := (res_bind r (fun x => k))
  (at level 61, r at next level, right associativity).

(** ** String helpers: the [str] methods the code calls *)

Definition CRLF : string := String (ascii_of_nat 13) (String (ascii_of_nat 10) "").
Definition SP : ascii := " "%char.

(** [s.strip_suffix(suf)] *)
Definition strip_suffix (suf s : string) : option string :=
  let n := String.length s in
  let k := String.length suf in
  if Nat.leb k n && String.eqb (substring (n - k) k s) suf
  then Some (substring 0 (n - k) s) else None.

(** [s.strip_prefix(pre)] *)
Definition strip_prefix (pre s : string) : option string :=
  if String.prefix pre s
  then Some (substring (String.length pre) (String.length s - String.length pre) s)
  else None.

(** [s.starts_with(pre)] *)
Definition starts_with (pre s : string) : bool := String.prefix pre s.

(** [s.split(c)] for a one-character pattern: the pieces between the
    occurrences of [c], so [n] occurrences give [n+1] pieces. *)
Fixpoint split_char (c : ascii) (s : string) : list string :=
  match s with
  | EmptyString => [""]
  | String a s' =>
      let rest := split_char c s' in
      if Ascii.eqb a c then "" :: rest
      else match rest with
           | [] => [String a ""]
           | h :: t => String a h :: t
           end
  end.

(** [s.split("\r\n")]: left-to-right, non-overlapping matches. *)
Fixpoint split_crlf (s : string) : list string :=
  match s with
  | EmptyString => [""]
  | String a s1 =>
      match s1 with
      | String b s2 =>
          if Ascii.eqb a (ascii_of_nat 13) && Ascii.eqb b (ascii_of_nat 10)
          then "" :: split_crlf s2
          else match split_crlf s1 with
               | [] => [String a ""]
               | h :: t => String a h :: t
               end
      | EmptyString => [String a ""]
      end
  end.

(** [.filter(|s| !s.is_empty()).collect()] *)
Definition nonempty (l : list string) : list string :=
  filter (fun t => negb (String.eqb t "")) l.

(** [vs[i]] on a [Vec<&str>]: out of range panics. *)
Definition index (vs : list string) (i : nat) : Res unit string :=
  match nth_error vs i with Some v => ROk v | None => RPanic end.

(** Decimal rendering of a [usize] with [{}]. *)
Definition show_nat (n : nat) : string := NilZero.string_of_uint (Nat.to_uint n).

(** ** [usize::from_str] (core::num, radix 10, unsigned, 64-bit usize) *)

Inductive IntErrorKind := Empty | InvalidDigit | PosOverflow.

Definition USIZE_MAX : Z := 2 ^ 64 - 1.

Definition digit_of (c : ascii) : option Z :=
  let n := nat_of_ascii c in
  if Nat.leb 48 n && Nat.leb n 57 then Some (Z.of_nat (n - 48)) else None.

Fixpoint parse_digits (acc : Z) (s : string) : Res IntErrorKind Z :=
  match s with
  | EmptyString => ROk acc
  | String c s' =>
      match digit_of c with
      | None => RErr InvalidDigit
      | Some d =>
          if Z.ltb USIZE_MAX (acc * 10 + d) then RErr PosOverflow
          else parse_digits (acc * 10 + d) s'
      end
  end.

Definition usize_from_str (s : string) : Res IntErrorKind nat :=
  match s with
  | EmptyString => RErr Empty
  | String c rest =>
      let digits :=
        if Ascii.eqb c "+"%char then
          (if String.eqb rest "" then None else Some rest)
        else if Ascii.eqb c "-"%char then
          (if String.eqb rest "" then None else Some s)
        else Some s in
      match digits with
      | None => RErr InvalidDigit
      | Some ds => z <- parse_digits 0 ds ;; ROk (Z.to_nat z)
      end
  end.

(** ** [enum Command] with [FromStr] and [Display] *)

Inductive Command :=
| APOP | AUTH | CAPA | DELE | LIST | NOOP | QUIT
| PASS | RETR | RSET | STAT | TOP | UIDL | USER.

Definition all_commands : list Command :=
  [APOP; AUTH; CAPA; DELE; LIST; NOOP; QUIT; PASS; RETR; RSET; STAT; TOP; UIDL; USER].

(** [impl FromStr for Command]: the error carries the rejected string. *)
Definition command_from_str (s : string) : Res string Command :=
  if String.eqb s "USER" then ROk USER
  else if String.eqb s "PASS" then ROk PASS
  else if String.eqb s "STAT" then ROk STAT
  else if String.eqb s "UIDL" then ROk UIDL
  else if String.eqb s "LIST" then ROk LIST
  else if String.eqb s "RETR" then ROk RETR
  else if String.eqb s "DELE" then ROk DELE
  else if String.eqb s "NOOP" then ROk NOOP
  else if String.eqb s "RSET" then ROk RSET
  else if String.eqb s "QUIT" then ROk QUIT
  else if String.eqb s "APOP" then ROk APOP
  else if String.eqb s "TOP" then ROk TOP
  else if String.eqb s "AUTH" then ROk AUTH
  else if String.eqb s "CAPA" then ROk CAPA
  else RErr ("invalid command: " ++ s).

(** [impl Display for Command] *)
Definition command_to_string (c : Command) : string :=
  match c with
  | USER => "USER" | PASS => "PASS" | STAT => "STAT" | UIDL => "UIDL"
  | LIST => "LIST" | RETR => "RETR" | DELE => "DELE" | NOOP => "NOOP"
  | RSET => "RSET" | QUIT => "QUIT" | APOP => "APOP" | TOP => "TOP"
  | AUTH => "AUTH" | CAPA => "CAPA"
  end.

(** ** [enum Request] and [Request::from_str] *)

Inductive Request :=
| RqAPOP (username digest : string)
| RqAUTH (v : option string)
| RqCAPA
| RqDELE (id : nat)
| RqLIST (id : option nat)
| RqNOOP
| RqPASS (v : string)
| RqQUIT
| RqRETR (id : nat)
| RqRSET
| RqSTAT
| RqTOP (id lines : nat)
| RqUIDL (id : option nat)
| RqUSER (v : string).

(** The [anyhow::Error]s [Request::from_str] can return: the one of
    [Command::from_str], the "invalid request for {cmd}" of a wrong token
    count, and the [ParseIntError] of [usize::from_str]. *)
Inductive DecodeError :=
| InvalidCommand (msg : string)
| InvalidRequest (cmd : Command) (line : string)
| ParseInt (k : IntErrorKind).

Definition lift_unit {A} (r : Res unit A) : Res DecodeError A :=
  match r with ROk a => ROk a | RErr _ => RPanic | RPanic => RPanic end.

Definition lift_int (r : Res IntErrorKind nat) : Res DecodeError nat :=
  match r with ROk a => ROk a | RErr k => RErr (ParseInt k) | RPanic => RPanic end.

Definition lift_cmd (r : Res string Command) : Res DecodeError Command :=
  match r with ROk a => ROk a | RErr m => RErr (InvalidCommand m) | RPanic => RPanic end.

(** [Request::from_str]: [v.strip_suffix("\r\n").unwrap()], split on
    single spaces dropping empty pieces, [Command::from_str(vs[0])?], then
    one arm per command. *)
Definition request_from_str (line : string) : Res DecodeError Request :=
  match strip_suffix CRLF line with
  | None => RPanic
  | Some v =>
    let vs := nonempty (split_char SP v) in
    let bad cmd : Res DecodeError Request := RErr (InvalidRequest cmd v) in
    let n := length vs in
    v0 <- lift_unit (index vs 0) ;;
    cmd <- lift_cmd (command_from_str v0) ;;
    match cmd with
    | USER => if negb (Nat.eqb n 2) then bad cmd else
                a <- lift_unit (index vs 1) ;; ROk (RqUSER a)
    | PASS => if negb (Nat.eqb n 2) then bad cmd else
                a <- lift_unit (index vs 1) ;; ROk (RqPASS a)
    | STAT => if negb (Nat.eqb n 1) then bad cmd else ROk RqSTAT
    | UIDL => match n with
              | 1 => ROk (RqUIDL None)
              | 2 => a <- lift_unit (index vs 1) ;;
                     m <- lift_int (usize_from_str a) ;; ROk (RqUIDL (Some m))
              | _ => bad cmd
              end
    | LIST => match n with
              | 1 => ROk (RqLIST None)
              | 2 => a <- lift_unit (index vs 1) ;;
                     m <- lift_int (usize_from_str a) ;; ROk (RqLIST (Some m))
              | _ => bad cmd
              end
    | RETR => if negb (Nat.eqb n 2) then bad cmd else
                a <- lift_unit (index vs 1) ;;
                m <- lift_int (usize_from_str a) ;; ROk (RqRETR m)
    | DELE => if negb (Nat.eqb n 2) then bad cmd else
                a <- lift_unit (index vs 1) ;;
                m <- lift_int (usize_from_str a) ;; ROk (RqDELE m)
    | NOOP => if negb (Nat.eqb n 1) then bad cmd else ROk RqNOOP
    | RSET => if negb (Nat.eqb n 1) then bad cmd else ROk RqRSET
    | QUIT => if negb (Nat.eqb n 1) then bad cmd else ROk RqQUIT
    | TOP => if negb (Nat.eqb n 3) then bad cmd else
               a <- lift_unit (index vs 1) ;;
               id <- lift_int (usize_from_str a) ;;
               b <- lift_unit (index vs 2) ;;
               lines <- lift_int (usize_from_str b) ;; ROk (RqTOP id lines)
    | APOP => if negb (Nat.eqb n 3) then bad cmd else
                a <- lift_unit (index vs 1) ;;
                b <- lift_unit (index vs 2) ;; ROk (RqAPOP a b)
    | AUTH => match n with
              | 1 => ROk (RqAUTH None)
              | 2 => a <- lift_unit (index vs 1) ;; ROk (RqAUTH (Some a))
              | _ => bad cmd
              end
    | CAPA => if negb (Nat.eqb n 1) then bad cmd else ROk RqCAPA
    end
  end.

(** ** [enum Response] and [Response::to_string] *)

Record MessageMeta := { id : nat; size : nat }.

Inductive ListResponse :=
| LSingle (m : MessageMeta)
| LAll (count : nat) (messages : list MessageMeta).

Inductive AuthResponse := AuthAll (v : list string).

Inductive Response :=
| RsAUTH (v : AuthResponse)
| RsCAPA (v : list string)
| RsDELE
| RsGREET (v : string)
| RsLIST (v : ListResponse)
| RsNOOP
| RsPASS (v : string)
| RsQUIT
| RsRETR (v : string)
| RsSTAT (count size : nat)
| RsRSET
| RsUSER (v : string)
| RsERR (v : string).

(** [for v in v.iter() { write!(&mut f, "{}\r\n", v)? }] *)
Definition lines_of (l : list string) : string :=
  fold_right (fun x acc => x ++ CRLF ++ acc) "" l.

(** A string holding no carriage return: a single wire line once a CRLF
    is appended. *)
Fixpoint no_cr (s : string) : bool :=
  match s with
  | EmptyString => true
  | String c r => negb (Ascii.eqb c (ascii_of_nat 13)) && no_cr r
  end.

(** [Response::to_string]; writing into a [String] never fails, so the
    [Result] it returns is always [Ok] and is dropped here. *)
Definition response_to_string (r : Response) : string :=
  match r with
  | RsAUTH (AuthAll v) =>
      "+OK " ++ show_nat (length v) ++ " auth methods" ++ CRLF ++ lines_of v ++ "." ++ CRLF
  | RsCAPA v => "+OK Capability list follows" ++ CRLF ++ lines_of v ++ "." ++ CRLF
  | RsDELE => "+OK" ++ CRLF
  | RsGREET v => "+OK " ++ v ++ CRLF
  | RsLIST (LAll count messages) =>
      "+OK " ++ show_nat count ++ " messages" ++ CRLF
      ++ lines_of (map (fun m => show_nat (id m) ++ " " ++ show_nat (size m)) messages)
      ++ "." ++ CRLF
  | RsLIST (LSingle m) => "+OK " ++ show_nat (id m) ++ " " ++ show_nat (size m) ++ CRLF
  | RsNOOP => "+OK" ++ CRLF
  | RsPASS v => "+OK " ++ v ++ CRLF
  | RsQUIT => "+OK" ++ CRLF
  | RsRETR v => "+OK" ++ CRLF ++ v ++ "." ++ CRLF
  | RsSTAT count size => "+OK " ++ show_nat count ++ " " ++ show_nat size ++ CRLF
  | RsRSET => "+OK" ++ CRLF
  | RsUSER v => "+OK " ++ v ++ CRLF
  | RsERR v => "-ERR " ++ v ++ CRLF
  end.

(** ** [Response::from_str] (the client-side decoder) *)

Inductive RespError :=
| InvalidResponse (cmd : Command) (v : string)
| RespParseInt (k : IntErrorKind).

Definition lift_resp_int (r : Res IntErrorKind nat) : Res RespError nat :=
  match r with ROk a => ROk a | RErr k => RErr (RespParseInt k) | RPanic => RPanic end.

Definition lift_resp_unit {A} (r : Res unit A) : Res RespError A :=
  match r with ROk a => ROk a | RErr _ => RPanic | RPanic => RPanic end.

(** [.unwrap()] on an [Option] *)
Definition unwrap {E A} (o : option A) : Res E A :=
  match o with Some a => ROk a | None => RPanic end.

Definition response_from_str (v : string) (cmd : Command) : Res RespError Response :=
  let bad : Res RespError Response := RErr (InvalidResponse cmd v) in
  if negb (starts_with "-ERR" v) || negb (starts_with "+OK" v) then bad
  else if starts_with "-ERR" v then
    v1 <- unwrap (strip_prefix "-ERR " v) ;;
    v2 <- unwrap (strip_suffix CRLF v1) ;;
    ROk (RsERR v2)
  else
    let vs := nonempty (split_crlf v) in
    let one := Nat.eqb (length vs) 1 in
    match cmd with
    | USER => if negb one then bad else
                a <- lift_resp_unit (index vs 0) ;;
                b <- unwrap (strip_prefix "+OK " a) ;; ROk (RsUSER b)
    | PASS => if negb one then bad else
                a <- lift_resp_unit (index vs 0) ;;
                b <- unwrap (strip_prefix "+OK " a) ;; ROk (RsPASS b)
    | STAT => if negb one then bad else
                a <- lift_resp_unit (index vs 0) ;;
                let ws := split_char SP a in
                if negb (Nat.eqb (length ws) 3) then bad else
                  c <- lift_resp_unit (index ws 1) ;;
                  count <- lift_resp_int (usize_from_str c) ;;
                  s <- lift_resp_unit (index ws 2) ;;
                  sz <- lift_resp_int (usize_from_str s) ;;
                  ROk (RsSTAT count sz)
    | UIDL | LIST | RETR => RPanic
    | DELE => if negb one then bad else ROk RsDELE
    | NOOP => if negb one then bad else ROk RsNOOP
    | RSET => if negb one then bad else
                a <- lift_resp_unit (index vs 0) ;;
                b <- unwrap (strip_prefix "+OK " a) ;; ROk (RsRETR b)
    | QUIT => if negb one then bad else ROk RsQUIT
    | TOP | APOP => RPanic
    | AUTH | CAPA => if negb one then bad else RPanic
    end.

(** ** The connection handler ([Handler::run] and [read_line])

    The client's bytes are a string; the stream ends after them.  Writes to
    the socket are taken to succeed. *)

(** One [read_until(b'\n', &mut data)]: the bytes up to and including the
    first newline, or all of them; [""] at end of stream. *)
Fixpoint read_until_nl (inp : string) : string * string :=
  match inp with
  | EmptyString => ("", "")
  | String c r =>
      if Ascii.eqb c (ascii_of_nat 10) then (String c "", r)
      else let (a, b) := read_until_nl r in (String c a, b)
  end.

Definition ends_with (suf s : string) : bool :=
  match strip_suffix suf s with Some _ => true | None => false end.

(** The loop of [read_line]; each round consumes a non-empty chunk, so
    [length inp + 1] rounds suffice. *)
Fixpoint read_line_loop (fuel : nat) (data inp : string) : string * string :=
  match fuel with
  | O => (data, inp)
  | S f =>
      let (chunk, rest) := read_until_nl inp in
      let data' := data ++ chunk in
      if String.eqb chunk "" && String.eqb data' "" then ("", rest)
      else if String.eqb chunk "" || ends_with CRLF data' then (data', rest)
      else read_line_loop f data' rest
  end.

(** [String::from_utf8_lossy], after core's [Utf8Chunks]: valid UTF-8
    sequences are copied, and each maximal invalid prefix of a sequence
    (a stray byte, a bad continuation, or a sequence cut short by the end
    of the input) is replaced by U+FFFD, the three bytes EF BF BD. *)
Definition REPLACEMENT : string :=
  String (ascii_of_nat 239) (String (ascii_of_nat 191) (String (ascii_of_nat 189) "")).

Definition utf8_in (lo hi : nat) (c : ascii) : bool :=
  Nat.leb lo (nat_of_ascii c) && Nat.leb (nat_of_ascii c) hi.

Definition utf8_cont (c : ascii) : bool := utf8_in 128 191 c.

Definition utf8_second3 (b c : ascii) : bool :=
  let n := nat_of_ascii b in
  if Nat.eqb n 224 then utf8_in 160 191 c
  else if Nat.eqb n 237 then utf8_in 128 159 c
  else utf8_cont c.

Definition utf8_second4 (b c : ascii) : bool :=
  let n := nat_of_ascii b in
  if Nat.eqb n 240 then utf8_in 144 191 c
  else if Nat.eqb n 244 then utf8_in 128 143 c
  else utf8_cont c.

Fixpoint utf8_lossy (s : string) : string :=
  match s with
  | EmptyString => EmptyString
  | String b r =>
      if Nat.ltb (nat_of_ascii b) 128 then String b (utf8_lossy r)
      else if utf8_in 194 223 b then
        match r with
        | String b2 r2 =>
            if utf8_cont b2 then String b (String b2 (utf8_lossy r2))
            else REPLACEMENT ++ utf8_lossy r
        | EmptyString => REPLACEMENT
        end
      else if utf8_in 224 239 b then
        match r with
        | String b2 r2 =>
            if utf8_second3 b b2 then
              match r2 with
              | String b3 r3 =>
                  if utf8_cont b3 then String b (String b2 (String b3 (utf8_lossy r3)))
                  else REPLACEMENT ++ utf8_lossy r2
              | EmptyString => REPLACEMENT
              end
            else REPLACEMENT ++ utf8_lossy r
        | EmptyString => REPLACEMENT
        end
      else if utf8_in 240 244 b then
        match r with
        | String b2 r2 =>
            if utf8_second4 b b2 then
              match r2 with
              | String b3 r3 =>
                  if utf8_cont b3 then
                    match r3 with
                    | String b4 r4 =>
                        if utf8_cont b4
                        then String b (String b2 (String b3 (String b4 (utf8_lossy r4))))
                        else REPLACEMENT ++ utf8_lossy r3
                    | EmptyString => REPLACEMENT
                    end
                  else REPLACEMENT ++ utf8_lossy r2
              | EmptyString => REPLACEMENT
              end
            else REPLACEMENT ++ utf8_lossy r
        | EmptyString => REPLACEMENT
        end
      else REPLACEMENT ++ utf8_lossy r
  end.

(** [read_line]: the bytes read, converted with [from_utf8_lossy], and
    the input left unread. *)
Definition read_line (inp : string) : string * string :=
  let (data, rest) := read_line_loop (S (String.length inp)) "" inp in
  (utf8_lossy data, rest).

Record Handler := { db : list (nat * MessageMeta) }.

(** The [match req { ... }] of [Handler::run]; [unimplemented!()] panics. *)
Definition dispatch (req : Request) : Res unit Response :=
  match req with
  | RqUSER _ => ROk (RsUSER "")
  | RqPASS _ => ROk (RsPASS "")
  | RqSTAT => ROk (RsSTAT 10 8)
  | RqUIDL _ | RqLIST _ | RqRETR _ | RqDELE _ => RPanic
  | RqNOOP | RqRSET | RqQUIT => RPanic
  | RqAUTH None => ROk (RsAUTH (AuthAll []))
  | RqAUTH (Some _) => RPanic
  | RqCAPA => ROk (RsCAPA ["TOP"; "USER"; "UIDL"])
  | RqTOP _ _ | RqAPOP _ _ => RPanic
  end.

(** How the handler task has ended so far: still in its loop when the
    fuel runs out, returned an error, or panicked. *)
Inductive HandlerEnd :=
| Running
| Failed (e : DecodeError)
| Panicked.

(** The [loop] of [Handler::run]: the replies written, and how it ends. *)
Fixpoint handler_loop (fuel : nat) (inp : string) : list string * HandlerEnd :=
  match fuel with
  | O => ([], Running)
  | S f =>
      let (s, rest) := read_line inp in
      if String.eqb s "" then handler_loop f rest
      else match request_from_str s with
           | RErr e => ([], Failed e)
           | RPanic => ([], Panicked)
           | ROk req =>
               match dispatch req with
               | ROk resp =>
                   let (out, e) := handler_loop f rest in
                   (response_to_string resp :: out, e)
               | _ => ([], Panicked)
               end
           end
  end.

Definition greet : Response := RsGREET "Welcome to postman pop3 server".

(** [Handler::run]: the greeting, then the loop.  The handler's [db] is
    never consulted. *)
Definition handler_run (h : Handler) (fuel : nat) (inp : string) : list string * HandlerEnd :=
  let (out, e) := handler_loop fuel inp in
  (response_to_string greet :: out, e).

(** ** [Listener::accept]: retry with exponential backoff

    [attempt k] is whether the [k]-th call to [listener.accept()] returns
    a socket.  The outcome and the list of sleeps taken; the loop is
    unbounded in the source, so a fuel bound is threaded through and
    [AccOutOfFuel] marks running out of it. *)

Inductive AcceptOutcome := AccOk | AccErr | AccOutOfFuel.

Fixpoint accept_loop (fuel backoff k : nat) (attempt : nat -> bool)
  : AcceptOutcome * list nat :=
  match fuel with
  | O => (AccOutOfFuel, [])
  | S f =>
      if attempt k then (AccOk, [])
      else if Nat.ltb 64 backoff then (AccErr, [])
      else let (o, sleeps) := accept_loop f (backoff * 2) (S k) attempt in
           (o, backoff :: sleeps)
  end.

Definition listener_accept (fuel : nat) (attempt : nat -> bool) : AcceptOutcome * list nat :=
  accept_loop fuel 1 0 attempt.

(** ** The server: [run], [Listener::run] and the handlers' lifecycle

    The state the coordination depends on: the permits left in the
    [Semaphore], the spawned handler tasks still running, the live clones
    of [shutdown_complete_tx], whether [notify_shutdown] is alive, whether
    the [select!] still polls [server.run()], and whether [run] returned. *)

Definition MAX_CONNECTIONS : nat := 1024.

Record Server := {
  permits : nat;
  next_task : nat;
  live : list nat;
  complete_senders : nat;
  notify_open : bool;
  accepting : bool;
  returned : bool }.

Definition server_init : Server := {|
  permits := MAX_CONNECTIONS; next_task := 0; live := [];
  complete_senders := 1; notify_open := true; accepting := true;
  returned := false |}.

Inductive Event :=
| EvAccept           (** one round of [Listener::run] whose accept succeeds *)
| EvAcceptFail       (** one round whose [self.accept()] returns [Err] *)
| EvFinish (t : nat) (** handler task [t] returns, on any path *)
| EvShutdown         (** the [shutdown] future of [run] completes *)
| EvReturn.          (** [shutdown_complete_rx.recv()] completes *)

(** The end of the [select!] in [run]: [server.run()] is dropped, then
    [drop(notify_shutdown)] and [drop(shutdown_complete_tx)]. *)
Definition end_select (s : Server) : Server := {|
  permits := permits s; next_task := next_task s; live := live s;
  complete_senders := complete_senders s - 1; notify_open := false;
  accepting := false; returned := returned s |}.

(** [None]: the event cannot happen in this state (the task is blocked
    or the event is over). *)
Definition server_step (s : Server) (ev : Event) : option Server :=
  match ev with
  | EvAccept =>
      (* [self.limit_connections.acquire().await.forget()] then spawn a
         [Handler]; the handler gets a clone of the semaphore and a
         [Shutdown] receiver, but no [shutdown_complete_tx]. *)
      if accepting s && Nat.ltb 0 (permits s) then
        Some {| permits := permits s - 1; next_task := S (next_task s);
                live := next_task s :: live s;
                complete_senders := complete_senders s;
                notify_open := notify_open s; accepting := true;
                returned := returned s |}
      else None
  | EvAcceptFail =>
      (* the permit is acquired and forgotten before [accept] fails; the
         error ends [server.run()] and with it the [select!] *)
      if accepting s && Nat.ltb 0 (permits s) then
        Some (end_select {| permits := permits s - 1; next_task := next_task s;
                            live := live s; complete_senders := complete_senders s;
                            notify_open := notify_open s; accepting := true;
                            returned := returned s |})
      else None
  | EvFinish t =>
      (* [Handler] has no [Drop] impl: ending the task gives nothing back *)
      if existsb (Nat.eqb t) (live s) then
        Some {| permits := permits s; next_task := next_task s;
                live := remove Nat.eq_dec t (live s);
                complete_senders := complete_senders s;
                notify_open := notify_open s; accepting := accepting s;
                returned := returned s |}
      else None
  | EvShutdown => if accepting s then Some (end_select s) else None
  | EvReturn =>
      (* [recv()] yields [None] once every sender is dropped *)
      if negb (accepting s) && negb (returned s) && Nat.eqb (complete_senders s) 0 then
        Some {| permits := permits s; next_task := next_task s; live := live s;
                complete_senders := 0; notify_open := notify_open s;
                accepting := false; returned := true |}
      else None
  end.

Fixpoint server_exec (s : Server) (evs : list Event) : option Server :=
  match evs with
  | [] => Some s
  | ev :: rest => match server_step s ev with
                  | Some s' => server_exec s' rest
                  | None => None
                  end
  end.

(** [n] connections, each accepted and then run to its end. *)
Definition serve_and_finish (n : nat) : list Event :=
  flat_map (fun t => [EvAccept; EvFinish t]) (seq 0 n).

Definition after_served (n : nat) : Server := {|
  permits := MAX_CONNECTIONS - n; next_task := n; live := [];
  complete_senders := 1; notify_open := true; accepting := true;
  returned := false |}.

(** While the server accepts, the listener's [shutdown_complete_tx] is the
    only sender of the completion channel, and [run] has not returned. *)
Definition accepting_inv (s : Server) : Prop :=
  accepting s = true -> complete_senders s = 1 /\ returned s = false.

(** ** [impl From<&Request> for Command] and [impl From<&Response> for Command] *)

Definition command_of_request (r : Request) : Command :=
  match r with
  | RqAPOP _ _ => APOP | RqAUTH _ => AUTH | RqCAPA => CAPA | RqDELE _ => DELE
  | RqLIST _ => LIST | RqNOOP => NOOP | RqPASS _ => PASS | RqQUIT => QUIT
  | RqRETR _ => RETR | RqRSET => RSET | RqSTAT => STAT | RqTOP _ _ => TOP
  | RqUIDL _ => UIDL | RqUSER _ => USER
  end.

(** GREET and ERR have no command: the [_ => panic!] arm. *)
Definition command_of_response (r : Response) : Res unit Command :=
  match r with
  | RsAUTH _ => ROk AUTH | RsCAPA _ => ROk CAPA | RsDELE => ROk DELE
  | RsLIST _ => ROk LIST | RsNOOP => ROk NOOP | RsPASS _ => ROk PASS
  | RsQUIT => ROk QUIT | RsRETR _ => ROk RETR | RsSTAT _ _ => ROk STAT
  | RsRSET => ROk RSET | RsUSER _ => ROk USER
  | RsGREET _ | RsERR _ => RPanic
  end.

(** ** [Request::to_string]: ["{cmd}\r\n"], ["{cmd} {arg}\r\n"] or
    ["{cmd} {arg} {arg}\r\n"]; writing into a [String] never fails. *)
Definition request_to_string (r : Request) : string :=
  let c := command_to_string (command_of_request r) in
  match r with
  | RqCAPA | RqNOOP | RqQUIT | RqRSET | RqSTAT => c ++ CRLF
  | RqDELE v => c ++ " " ++ show_nat v ++ CRLF
  | RqPASS v => c ++ " " ++ v ++ CRLF
  | RqRETR v => c ++ " " ++ show_nat v ++ CRLF
  | RqUSER v => c ++ " " ++ v ++ CRLF
  | RqAUTH None => c ++ CRLF
  | RqAUTH (Some v) => c ++ " " ++ v ++ CRLF
  | RqLIST None => c ++ CRLF
  | RqLIST (Some v) => c ++ " " ++ show_nat v ++ CRLF
  | RqUIDL None => c ++ CRLF
  | RqUIDL (Some v) => c ++ " " ++ show_nat v ++ CRLF
  | RqAPOP username digest => c ++ " " ++ username ++ " " ++ digest ++ CRLF
  | RqTOP id lines => c ++ " " ++ show_nat id ++ " " ++ show_nat lines ++ CRLF
  end.

(** An argument [Request::to_string] writes as one token: not empty and
    holding no space. *)
Fixpoint no_sp (s : string) : bool :=
  match s with
  | EmptyString => true
  | String c r => negb (Ascii.eqb c SP) && no_sp r
  end.

Definition is_token (s : string) : bool := negb (String.eqb s "") && no_sp s.

(** A [usize] argument fits in 64 bits. *)
Definition fits_usize (n : nat) : bool := Z.leb (Z.of_nat n) USIZE_MAX.

(** The arguments of a request as [Request::to_string] can write them
    back for [Request::from_str]. *)
Definition request_wf (r : Request) : bool :=
  match r with
  | RqAPOP u d => is_token u && is_token d
  | RqAUTH (Some v) | RqPASS v | RqUSER v => is_token v
  | RqDELE n | RqRETR n | RqLIST (Some n) | RqUIDL (Some n) => fits_usize n
  | RqTOP i l => fits_usize i && fits_usize l
  | _ => true
  end.

(** The number of arguments a request carries, as [Request::from_str]
    reads them off the line. *)
Definition request_arity (r : Request) : nat :=
  match r with
  | RqAPOP _ _ | RqTOP _ _ => 2
  | RqAUTH (Some _) | RqLIST (Some _) | RqUIDL (Some _) => 1
  | RqDELE _ | RqPASS _ | RqRETR _ | RqUSER _ => 1
  | _ => 0
  end.

(** A string holding no line feed. *)
Fixpoint no_lf (s : string) : bool :=
  match s with
  | EmptyString => true
  | String c r => negb (Ascii.eqb c (ascii_of_nat 10)) && no_lf r
  end.

(** The free-text arguments of a request hold no line feed, so its
    encoding is one line. *)
Definition request_no_lf (r : Request) : bool :=
  match r with
  | RqAPOP u d => no_lf u && no_lf d
  | RqAUTH (Some v) | RqPASS v | RqUSER v => no_lf v
  | _ => true
  end.

(** All bytes of a string satisfy [p]. *)
Fixpoint forall_bytes (p : ascii -> bool) (s : string) : bool :=
  match s with
  | EmptyString => true
  | String c r => p c && forall_bytes p r
  end.

Definition is_ascii (c : ascii) : bool := Nat.ltb (nat_of_ascii c) 128.

(** The request [Request::from_str] sees once [read_line] has passed the
    encoding of [r] through [from_utf8_lossy]. *)
Definition request_lossy (r : Request) : Request :=
  match r with
  | RqAPOP u d => RqAPOP (utf8_lossy u) (utf8_lossy d)
  | RqAUTH (Some v) => RqAUTH (Some (utf8_lossy v))
  | RqPASS v => RqPASS (utf8_lossy v)
  | RqUSER v => RqUSER (utf8_lossy v)
  | r => r
  end.

(** * Checks on concrete inputs *)

Example command_from_str_top : command_from_str "TOP" = ROk TOP.
Proof. reflexivity. Qed.

Example command_from_str_lower : command_from_str "top" = RErr "invalid command: top".
Proof. reflexivity. Qed.

Example usize_from_str_ex :
  usize_from_str "42" = ROk 42 /\ usize_from_str "+7" = ROk 7
  /\ usize_from_str "-1" = RErr InvalidDigit /\ usize_from_str "" = RErr Empty
  /\ usize_from_str "18446744073709551616" = RErr PosOverflow.
Proof. vm_compute. repeat split. Qed.

Example split_char_ex : nonempty (split_char SP "  LIST  3 ") = ["LIST"; "3"].
Proof. reflexivity. Qed.

Example sanity_1 : request_from_str ("LIST 3" ++ CRLF) = ROk (RqLIST (Some 3)).
Proof. reflexivity. Qed.
Example sanity_2 : request_from_str "STAT" = RPanic.
Proof. reflexivity. Qed.
Example sanity_3 : request_from_str (" " ++ CRLF) = RPanic.
Proof. reflexivity. Qed.
Example sanity_4 : request_from_str ("TOP 1" ++ CRLF) = RErr (InvalidRequest TOP "TOP 1").
Proof. reflexivity. Qed.
Example sanity_5 : read_line ("STAT" ++ CRLF ++ "NOOP" ++ CRLF) = ("STAT" ++ CRLF, "NOOP" ++ CRLF).
Proof. reflexivity. Qed.
Example sanity_lossy :
  read_line (String (ascii_of_nat 255) CRLF) = (REPLACEMENT ++ CRLF, "")
  /\ utf8_lossy (String (ascii_of_nat 226) (String (ascii_of_nat 130) " "))
     = REPLACEMENT ++ " ".
Proof. split; reflexivity. Qed.

Example sanity_6 : handler_run {| db := [] |} 4 ("CAPA" ++ CRLF ++ "STAT" ++ CRLF) =
  (["+OK Welcome to postman pop3 server" ++ CRLF;
    "+OK Capability list follows" ++ CRLF ++ "TOP" ++ CRLF ++ "USER" ++ CRLF ++ "UIDL" ++ CRLF ++ "." ++ CRLF;
    "+OK 10 8" ++ CRLF], Running).
Proof. reflexivity. Qed.
Example sanity_7 : listener_accept 20 (fun _ => false) = (AccErr, [1;2;4;8;16;32;64]).
Proof. reflexivity. Qed.
Example sanity_8 : response_to_string (RsSTAT 2 320) = "+OK 2 320" ++ CRLF.
Proof. reflexivity. Qed.

(** * Theorems *)

(** ** The command keywords *)

(** C8: [Command::from_str] accepts exactly the fourteen upper-case
    keywords, each rendered by [Display] for one command, and parsing the
    rendered keyword of any command gives that command back. *)
Theorem command_from_str_exact :
  (forall s c, command_from_str s = ROk c <-> s = command_to_string c)
  /\ (forall s, (exists c, command_from_str s = ROk c) <->
        In s ["USER"; "PASS"; "APOP"; "AUTH"; "CAPA"; "STAT"; "LIST";
              "UIDL"; "RETR"; "DELE"; "NOOP"; "RSET"; "TOP"; "QUIT"])
  /\ (forall c, command_from_str (command_to_string c) = ROk c).
Proof.
  assert (Hfwd : forall s c, command_from_str s = ROk c -> s = command_to_string c).
  { intros s c. unfold command_from_str.
    repeat match goal with
           | |- context [String.eqb s ?t] =>
               destruct (String.eqb_spec s t) as [->|_];
               [intros H; injection H as <-; reflexivity|]
           end.
    intros H; discriminate H. }
  assert (Hbwd : forall c, command_from_str (command_to_string c) = ROk c).
  { destruct c; reflexivity. }
  split; [|split]; [| |exact Hbwd].
  - intros s c; split; [apply Hfwd|intros ->; apply Hbwd].
  - intros s; split.
    + intros [c Hc]. apply Hfwd in Hc. subst s.
      destruct c; simpl; tauto.
    + simpl. intros Hin.
      repeat (destruct Hin as [<-|Hin]; [eexists; reflexivity|]).
      contradiction.
Qed.

(** ** The client-side response decoder *)

Lemma starts_with_err_ok_exclusive (v : string) :
  starts_with "-ERR" v = true -> starts_with "+OK" v = true -> False.
Proof.
  destruct v as [|c v]; [discriminate|].
  unfold starts_with; cbn [String.prefix].
  destruct (ascii_dec "-" c) as [<-|_]; [|discriminate].
  destruct (ascii_dec "+" "-") as [H|_]; [discriminate H|discriminate].
Qed.

(** C10: whatever the input [v] and the command [cmd],
    [Response::from_str(v, cmd)] returns an error: its guard
    [!v.starts_with("-ERR") || !v.starts_with("+OK")] holds for every
    string, since no string starts with both. *)
Theorem response_from_str_always_err (v : string) (cmd : Command) :
  response_from_str v cmd = RErr (InvalidResponse cmd v).
Proof.
  unfold response_from_str.
  destruct (starts_with "-ERR" v) eqn:E1; [|reflexivity].
  destruct (starts_with "+OK" v) eqn:E2; [|reflexivity].
  exfalso; exact (starts_with_err_ok_exclusive v E1 E2).
Qed.

(** ** The accept retry loop *)

Ltac split_attempts :=
  repeat match goal with
         | |- context [?a ?k] =>
             match type of a with
             | nat -> bool => let E := fresh "E" in destruct (a k) eqn:E; simpl
             end
         end.

(** C9: whatever the accept calls return, [Listener::accept] ends within
    eight calls, more fuel changes nothing, and it never sleeps more than
    seven times, the sleeps being [1, 2, 4, ...] time units; when every
    call fails it sleeps [1, 2, 4, 8, 16, 32, 64] and returns the error. *)
Theorem listener_accept_terminates (attempt : nat -> bool) (fuel : nat)
  (Hfuel : 8 <= fuel) :
  listener_accept fuel attempt = listener_accept 8 attempt
  /\ fst (listener_accept fuel attempt) <> AccOutOfFuel
  /\ (exists n, n <= 7 /\ snd (listener_accept fuel attempt) = firstn n [1;2;4;8;16;32;64])
  /\ ((forall k, attempt k = false) ->
      listener_accept fuel attempt = (AccErr, [1;2;4;8;16;32;64])).
Proof.
  do 8 (destruct fuel as [|fuel]; [lia|]).
  unfold listener_accept; simpl.
  split_attempts;
    (split; [reflexivity|]);
    (split; [discriminate|]);
    (split; [ first [ exists 0; split; [lia|reflexivity]
                    | exists 1; split; [lia|reflexivity]
                    | exists 2; split; [lia|reflexivity]
                    | exists 3; split; [lia|reflexivity]
                    | exists 4; split; [lia|reflexivity]
                    | exists 5; split; [lia|reflexivity]
                    | exists 6; split; [lia|reflexivity]
                    | exists 7; split; [lia|reflexivity] ] |]);
    intros Hall; try reflexivity;
    exfalso;
    match goal with H : attempt ?k = true |- _ => rewrite Hall in H; discriminate H end.
Qed.

Lemma listener_accept_terminates_witness :
  8 <= 12 /\ fst (listener_accept 12 (fun k => Nat.eqb k 3)) <> AccOutOfFuel.
Proof.
  split; [lia|].
  destruct (listener_accept_terminates (fun k => Nat.eqb k 3) 12 ltac:(lia)) as [_ [H _]].
  exact H.
Defined.

(** ** Multi-line responses *)

Lemma str_app_assoc (a b c : string) : (a ++ b) ++ c = a ++ (b ++ c).
Proof. induction a as [|x a IH]; simpl; [reflexivity|now rewrite IH]. Qed.

Lemma str_app_nil_r (a : string) : a ++ "" = a.
Proof. induction a as [|x a IH]; simpl; [reflexivity|now rewrite IH]. Qed.

Lemma split_crlf_cons (c : ascii) (s1 : string) :
  Ascii.eqb c (ascii_of_nat 13) = false -> s1 <> "" ->
  split_crlf (String c s1) =
  match split_crlf s1 with [] => [String c ""] | h :: t => String c h :: t end.
Proof.
  intros Hc Hs. destruct s1 as [|b s2]; [congruence|].
  change (split_crlf (String c (String b s2))) with
    (if Ascii.eqb c (ascii_of_nat 13) && Ascii.eqb b (ascii_of_nat 10)
     then "" :: split_crlf s2
     else match split_crlf (String b s2) with
          | [] => [String c ""]
          | h :: t => String c h :: t
          end).
  rewrite Hc. reflexivity.
Qed.

(** Splitting on CRLF cuts a CR-free line off the front. *)
Lemma split_crlf_line (a rest : string) :
  no_cr a = true -> split_crlf (a ++ CRLF ++ rest) = a :: split_crlf rest.
Proof.
  induction a as [|c a IH]; intros Ha; [reflexivity|].
  simpl in Ha. apply andb_prop in Ha as [Hc Ha].
  apply negb_true_iff in Hc.
  change (String c a ++ CRLF ++ rest) with (String c (a ++ CRLF ++ rest)).
  rewrite split_crlf_cons by (exact Hc || (destruct a; discriminate)).
  rewrite (IH Ha). reflexivity.
Qed.

Lemma split_crlf_lines (ls : list string) (rest : string) :
  forallb no_cr ls = true ->
  split_crlf (lines_of ls ++ rest) = app ls (split_crlf rest).
Proof.
  induction ls as [|x ls IH]; intros H; [reflexivity|].
  simpl in H. apply andb_prop in H as [Hx Hls].
  unfold lines_of; cbn [fold_right]; fold (lines_of ls).
  rewrite !str_app_assoc. rewrite split_crlf_line by exact Hx.
  rewrite IH by exact Hls. reflexivity.
Qed.

Lemma str_length_app (a b : string) :
  String.length (a ++ b) = String.length a + String.length b.
Proof. induction a as [|x a IH]; simpl; [reflexivity|now rewrite IH]. Qed.

Lemma no_cr_app (a b : string) : no_cr (a ++ b) = no_cr a && no_cr b.
Proof.
  induction a as [|x a IH]; simpl; [reflexivity|].
  now rewrite IH, andb_assoc.
Qed.

Lemma no_cr_digits (d : Decimal.uint) : no_cr (NilEmpty.string_of_uint d) = true.
Proof. induction d; simpl; auto. Qed.

Lemma no_cr_show_nat (n : nat) : no_cr (show_nat n) = true.
Proof.
  unfold show_nat, NilZero.string_of_uint.
  destruct (Nat.to_uint n); try reflexivity; apply no_cr_digits.
Qed.

Create Rewrite HintDb nocr.
#[local] Hint Rewrite no_cr_app no_cr_show_nat : nocr.

Lemma terminator_line (st : string) (v : list string) :
  exists pre, st ++ CRLF ++ lines_of v ++ "." ++ CRLF = pre ++ CRLF ++ "." ++ CRLF.
Proof.
  revert st; induction v as [|a v IH]; intros st; [exists st; reflexivity|].
  destruct (IH (st ++ CRLF ++ a)) as [pre H]. exists pre. rewrite <- H.
  cbn [lines_of fold_right]. fold (lines_of v). rewrite !str_app_assoc. reflexivity.
Qed.

(** C7: the CAPA, AUTH method-list and LIST-all responses end in a lone
    [".\r\n"] line whatever their items, and LIST over no messages is
    exactly ["+OK 0 messages\r\n.\r\n"]; but the RETR arm writes ["."]
    right after the body, so for the body ["abc"] the last line is
    ["abc."] and no lone [".\r\n"] line ends the response. *)
Theorem retr_terminator_not_lone :
  (forall v, exists pre, response_to_string (RsCAPA v) = pre ++ CRLF ++ "." ++ CRLF)
  /\ (forall v, exists pre,
        response_to_string (RsAUTH (AuthAll v)) = pre ++ CRLF ++ "." ++ CRLF)
  /\ (forall count ms, exists pre,
        response_to_string (RsLIST (LAll count ms)) = pre ++ CRLF ++ "." ++ CRLF)
  /\ response_to_string (RsLIST (LAll 0 [])) = "+OK 0 messages" ++ CRLF ++ "." ++ CRLF
  /\ split_crlf (response_to_string (RsRETR "abc")) = ["+OK"; "abc."; ""]
  /\ ~ (exists pre, response_to_string (RsRETR "abc") = pre ++ CRLF ++ "." ++ CRLF).
Proof.
  split; [|split; [|split; [|split; [|split]]]].
  - intros v. apply terminator_line.
  - intros v. cbn [response_to_string].
    destruct (terminator_line ("+OK " ++ show_nat (length v) ++ " auth methods") v) as [pre H].
    exists pre. rewrite <- H. rewrite !str_app_assoc. reflexivity.
  - intros count ms. cbn [response_to_string].
    destruct (terminator_line ("+OK " ++ show_nat count ++ " messages")
                (map (fun m => show_nat (id m) ++ " " ++ show_nat (size m)) ms)) as [pre H].
    exists pre. rewrite <- H. rewrite !str_app_assoc. reflexivity.
  - reflexivity.
  - reflexivity.
  - intros [pre H].
    pose proof (f_equal String.length H) as L.
    rewrite !str_length_app in L. simpl in L.
    do 6 (destruct pre as [|? pre]; [simpl in L; lia|]).
    destruct pre; [|simpl in L; lia].
    inversion H.
Qed.

(** ** Byte-stuffing *)

(** C3: the RETR arm writes the body verbatim: a body line consisting of a
    single ["."] is sent as ["."], not [".."], and so reads as the
    terminator of the response, ahead of the real one. *)
Theorem retr_no_byte_stuffing :
  response_to_string (RsRETR ("." ++ CRLF))
  = "+OK" ++ CRLF ++ "." ++ CRLF ++ "." ++ CRLF
  /\ split_crlf (response_to_string (RsRETR ("." ++ CRLF))) = ["+OK"; "."; "."; ""].
Proof. split; reflexivity. Qed.

(** ** Request decoding *)

(** C2: [Request::from_str] is not total on the lines the handler passes
    it: a line without its CRLF (what [read_line] returns when the stream
    ends mid-line) panics in [strip_suffix(..).unwrap()], and a line with
    no token, such as a bare CRLF, panics on [vs[0]]; through the handler,
    either input kills the connection's task. *)
Theorem request_from_str_panics :
  request_from_str "STAT" = RPanic
  /\ request_from_str CRLF = RPanic
  /\ request_from_str (" " ++ CRLF) = RPanic
  /\ handler_run {| db := [] |} 3 "STAT" = ([response_to_string greet], Panicked)
  /\ handler_run {| db := [] |} 3 CRLF = ([response_to_string greet], Panicked).
Proof. repeat split; reflexivity. Qed.

(** ** The connection handler *)

Lemma read_line_stat (inp : string) :
  read_line ("STAT" ++ CRLF ++ inp) = ("STAT" ++ CRLF, inp).
Proof. reflexivity. Qed.

(** C4: whatever the handler's mailbox, a STAT line is answered with the
    fixed [Response::STAT { count: 10, size: 8 }], i.e. ["+OK 10 8\r\n"];
    on the mailbox with messages of 120 and 200 octets the reply is not
    the ["+OK 2 320\r\n"] that the STAT encoder renders for its count and
    size. *)
Theorem stat_reply_is_constant (h : Handler) (f : nat) (inp : string) :
  handler_run h (S f) ("STAT" ++ CRLF ++ inp)
  = (response_to_string greet :: ("+OK 10 8" ++ CRLF) :: fst (handler_loop f inp),
     snd (handler_loop f inp))
  /\ response_to_string (RsSTAT 2 320) = "+OK 2 320" ++ CRLF
  /\ handler_run {| db := [(1, {| id := 1; size := 120 |}); (2, {| id := 2; size := 200 |})] |}
       2 ("STAT" ++ CRLF)
     = ([response_to_string greet; "+OK 10 8" ++ CRLF], Running).
Proof.
  split; [|split; reflexivity].
  unfold handler_run. cbn [handler_loop].
  rewrite read_line_stat. cbn.
  destruct (handler_loop f inp); reflexivity.
Qed.

(** C1 (counterexample): a line that fails to decode ends the handler
    with the error and gets no reply; the CAPA line after it is never
    read. *)
Lemma decode_failure_ends_session :
  handler_run {| db := [] |} 5 ("FOO" ++ CRLF ++ "CAPA" ++ CRLF)
  = ([response_to_string greet], Failed (InvalidCommand "invalid command: FOO")).
Proof. reflexivity. Qed.

(** C1 (as amended): when the next line read is non-empty and fails to
    decode with an error, the handler writes no reply for it and returns
    that error, which ends the session. *)
Theorem handler_stops_on_decode_error (f : nat) (inp s rest : string) (e : DecodeError)
  (Hread : read_line inp = (s, rest)) (Hs : s <> "")
  (Hdec : request_from_str s = RErr e) :
  handler_loop (S f) inp = ([], Failed e).
Proof.
  cbn [handler_loop]. rewrite Hread.
  destruct (String.eqb_spec s "") as [->|_]; [congruence|].
  rewrite Hdec. reflexivity.
Qed.

Lemma handler_stops_on_decode_error_witness :
  read_line ("FOO" ++ CRLF) = ("FOO" ++ CRLF, "") /\ "FOO" ++ CRLF <> ""
  /\ request_from_str ("FOO" ++ CRLF) = RErr (InvalidCommand "invalid command: FOO")
  /\ handler_loop 1 ("FOO" ++ CRLF) = ([], Failed (InvalidCommand "invalid command: FOO")).
Proof.
  split; [reflexivity|]. split; [discriminate|]. split; [reflexivity|].
  apply (handler_stops_on_decode_error 0 ("FOO" ++ CRLF) ("FOO" ++ CRLF) "");
    [reflexivity|discriminate|reflexivity].
Defined.

(** ** Admission control *)

Lemma server_exec_app (s : Server) (a b : list Event) :
  server_exec s (a ++ b) =
  match server_exec s a with Some s' => server_exec s' b | None => None end.
Proof.
  revert s; induction a as [|ev a IH]; intros s; [reflexivity|].
  cbn [app server_exec]. destruct (server_step s ev); [apply IH|reflexivity].
Qed.


Lemma serve_and_finish_state (n : nat) :
  n <= MAX_CONNECTIONS -> server_exec server_init (serve_and_finish n) = Some (after_served n).
Proof.
  induction n as [|n IH]; intros Hn; [reflexivity|].
  unfold serve_and_finish. rewrite seq_S, flat_map_app.
  fold (serve_and_finish n). rewrite server_exec_app, IH by lia.
  unfold after_served, MAX_CONNECTIONS in *.
  destruct (1024 - n) as [|k] eqn:Ek; [lia|].
  replace (1024 - S n) with k by lia.
  cbn - [Nat.eq_dec]. rewrite Nat.eqb_refl. cbn - [Nat.eq_dec].
  destruct (Nat.eq_dec n n) as [_|]; [|congruence].
  rewrite ?Nat.sub_0_r. reflexivity.
Qed.

(** C5: no permit ever goes back to the admission semaphore: a finished
    handler leaves the permits as they were, so after one connection has
    been served the gate holds 1023 permits, and after 1024 connections
    have come and gone, with no handler left running, the accept loop can
    no longer acquire a permit. *)
Theorem admission_permit_never_released :
  (forall s t s', server_step s (EvFinish t) = Some s' -> permits s' = permits s)
  /\ server_exec server_init [EvAccept; EvFinish 0] = Some (after_served 1)
  /\ permits (after_served 1) = 1023
  /\ server_exec server_init (serve_and_finish MAX_CONNECTIONS) = Some (after_served MAX_CONNECTIONS)
  /\ live (after_served MAX_CONNECTIONS) = []
  /\ server_step (after_served MAX_CONNECTIONS) EvAccept = None.
Proof.
  split; [|split; [reflexivity|split; [reflexivity|split; [|split; reflexivity]]]].
  - intros s t s' H. cbn in H.
    destruct (existsb (Nat.eqb t) (live s)); [|discriminate].
    injection H as <-. reflexivity.
  - apply serve_and_finish_state. lia.
Qed.

(** ** Shutdown *)


Lemma accepting_inv_step (s s' : Server) (ev : Event) :
  accepting_inv s -> server_step s ev = Some s' -> accepting_inv s'.
Proof.
  unfold accepting_inv; intros Hinv Hstep.
  destruct ev; unfold server_step in Hstep.
  - destruct (accepting s && Nat.ltb 0 (permits s)) eqn:E; [|discriminate].
    injection Hstep as <-. cbn. apply andb_prop in E as [E _]. auto.
  - destruct (accepting s && Nat.ltb 0 (permits s)); [|discriminate].
    injection Hstep as <-. cbn. discriminate.
  - destruct (existsb (Nat.eqb t) (live s)); [|discriminate].
    injection Hstep as <-. cbn. auto.
  - destruct (accepting s); [|discriminate].
    injection Hstep as <-. cbn. discriminate.
  - destruct (negb (accepting s) && negb (returned s) && Nat.eqb (complete_senders s) 0);
      [|discriminate].
    injection Hstep as <-. cbn. discriminate.
Qed.

Lemma accepting_inv_exec (evs : list Event) (s s' : Server) :
  accepting_inv s -> server_exec s evs = Some s' -> accepting_inv s'.
Proof.
  revert s; induction evs as [|ev evs IH]; intros s Hinv H.
  - cbn in H. injection H as <-. exact Hinv.
  - cbn in H. destruct (server_step s ev) as [s1|] eqn:E; [|discriminate].
    exact (IH s1 (accepting_inv_step s s1 ev Hinv E) H).
Qed.

(** C6: whatever has happened while the server accepts, once the
    shutdown signal fires [run] can return at once: handlers hold no
    completion sender, so [shutdown_complete_rx.recv()] does not wait for
    them, and [run] returns with every handler still running. *)
Theorem shutdown_does_not_wait_for_handlers (evs : list Event) (s : Server)
  (Hrun : server_exec server_init evs = Some s) (Hacc : accepting s = true) :
  exists s', server_exec s [EvShutdown; EvReturn] = Some s'
             /\ returned s' = true /\ live s' = live s.
Proof.
  assert (Hinv : accepting_inv s).
  { apply (accepting_inv_exec evs server_init); [|exact Hrun].
    intros _. split; reflexivity. }
  destruct (Hinv Hacc) as [Hsend Hret].
  cbn. rewrite Hacc. cbn. rewrite Hret, Hsend. cbn.
  eexists; split; [reflexivity|split; reflexivity].
Qed.

Lemma shutdown_does_not_wait_for_handlers_witness :
  let s1 := {| permits := 1023; next_task := 1; live := [0]; complete_senders := 1;
               notify_open := true; accepting := true; returned := false |} in
  server_exec server_init [EvAccept] = Some s1 /\ accepting s1 = true
  /\ exists s', server_exec s1 [EvShutdown; EvReturn] = Some s'
                /\ returned s' = true /\ live s' = live s1.
Proof.
  intros s1. split; [reflexivity|]. split; [reflexivity|].
  apply (shutdown_does_not_wait_for_handlers [EvAccept] s1); reflexivity.
Defined.

(** * Further properties of the codec, the handler and the server *)

(** ** Decimal numbers: [{}] on a [usize], read back by [usize::from_str] *)

From Stdlib Require Import Numbers.DecimalNat.

Lemma of_uint_acc_ge (d : Decimal.uint) (acc : nat) : acc <= Nat.of_uint_acc d acc.
Proof.
  revert acc; induction d; intros acc; cbn [Nat.of_uint_acc];
    rewrite ?Nat.tail_mul_spec; try lia;
    match goal with IH : forall a, a <= Nat.of_uint_acc ?d a |- _ <= Nat.of_uint_acc ?d ?x =>
      specialize (IH x); lia end.
Qed.

Lemma parse_digits_uint (d : Decimal.uint) (acc : nat) :
  Z.le (Z.of_nat (Nat.of_uint_acc d acc)) USIZE_MAX ->
  parse_digits (Z.of_nat acc) (NilEmpty.string_of_uint d) = ROk (Z.of_nat (Nat.of_uint_acc d acc)).
Proof.
  revert acc; induction d as [|d IH|d IH|d IH|d IH|d IH|d IH|d IH|d IH|d IH|d IH];
    intros acc H; [reflexivity| ..];
    cbn [Nat.of_uint_acc] in H |- *; rewrite !Nat.tail_mul_spec in H |- *;
    cbn [NilEmpty.string_of_uint parse_digits];
    match goal with |- context [digit_of ?c] =>
      let v := eval vm_compute in (digit_of c) in change (digit_of c) with v end;
    cbv iota beta;
    match goal with |- context [Nat.of_uint_acc d ?x] =>
      pose proof (of_uint_acc_ge d x);
      rewrite (proj2 (Z.ltb_ge _ _)) by lia;
      replace (Z.of_nat acc * 10 + _)%Z with (Z.of_nat x) by lia;
      apply IH; exact H
    end.
Qed.

Lemma usize_from_str_show_nat (n : nat) :
  fits_usize n = true -> usize_from_str (show_nat n) = ROk n.
Proof.
  unfold fits_usize, show_nat; intros H. apply Z.leb_le in H.
  pose proof (Unsigned.of_to n) as Hof. unfold Nat.of_uint in Hof.
  assert (Hp : forall d, Nat.of_uint_acc d 0 = n ->
     usize_from_str (NilZero.string_of_uint d) = ROk n).
  { intros d Hd. pose proof (parse_digits_uint d 0) as P. rewrite Hd in P.
    specialize (P H). cbn [Z.of_nat] in P.
    destruct d; cbn in Hd |- *;
      try (subst n; reflexivity);
      (* the first digit is neither '+' nor '-' *)
      cbn in P |- *; rewrite P; cbn; now rewrite Nat2Z.id. }
  exact (Hp _ Hof).
Qed.

(** ** Request lines: [Request::to_string] read back by [Request::from_str] *)

Lemma substring_app_prefix (a b : string) : substring 0 (String.length a) (a ++ b) = a.
Proof. induction a as [|c a IH]; simpl; [destruct b; reflexivity|now rewrite IH]. Qed.

Lemma substring_whole (b : string) : substring 0 (String.length b) b = b.
Proof. induction b as [|c b IH]; simpl; [reflexivity|now rewrite IH]. Qed.

Lemma substring_app_suffix (a b : string) :
  substring (String.length a) (String.length b) (a ++ b) = b.
Proof. induction a as [|c a IH]; simpl; [apply substring_whole|exact IH]. Qed.

Lemma strip_suffix_crlf (v : string) : strip_suffix CRLF (v ++ CRLF) = Some v.
Proof.
  unfold strip_suffix. rewrite str_length_app.
  replace (String.length v + String.length CRLF - String.length CRLF)
    with (String.length v) by lia.
  rewrite substring_app_suffix, substring_app_prefix.
  replace (Nat.leb (String.length CRLF) (String.length v + String.length CRLF)) with true
    by (symmetry; apply Nat.leb_le; lia).
  reflexivity.
Qed.

Lemma split_char_token (t rest : string) :
  no_sp t = true -> split_char SP (t ++ " " ++ rest) = t :: split_char SP rest.
Proof.
  induction t as [|c t IH]; intros H; [reflexivity|].
  cbn [no_sp] in H. apply andb_prop in H as [Hc H].
  apply negb_true_iff in Hc.
  change (String c t ++ " " ++ rest) with (String c (t ++ " " ++ rest)).
  cbn [split_char]. rewrite (IH H), Hc. reflexivity.
Qed.

Lemma split_char_last (t : string) : no_sp t = true -> split_char SP t = [t].
Proof.
  intros H. pose proof (split_char_token t "" H) as E.
  induction t as [|c t IH]; [reflexivity|].
  cbn [no_sp] in H. apply andb_prop in H as [Hc H].
  apply negb_true_iff in Hc. cbn [split_char]. rewrite (IH H), Hc.
  - reflexivity.
  - apply split_char_token; exact H.
Qed.

Lemma no_sp_digits (d : Decimal.uint) : no_sp (NilEmpty.string_of_uint d) = true.
Proof. induction d; simpl; auto. Qed.

Lemma no_sp_show_nat (n : nat) : no_sp (show_nat n) = true.
Proof.
  unfold show_nat, NilZero.string_of_uint.
  destruct (Nat.to_uint n); try reflexivity; apply no_sp_digits.
Qed.

Lemma show_nat_nonempty (n : nat) : String.eqb (show_nat n) "" = false.
Proof.
  unfold show_nat, NilZero.string_of_uint.
  destruct (Nat.to_uint n); reflexivity.
Qed.

Lemma is_token_parts (s : string) :
  is_token s = true -> String.eqb s "" = false /\ no_sp s = true.
Proof.
  unfold is_token; intros H. apply andb_prop in H as [H1 H2].
  split; [apply negb_true_iff|]; assumption.
Qed.

Lemma request_roundtrip_aux (r : Request) :
  request_wf r = true -> request_from_str (request_to_string r) = ROk r.
Proof.
  intros Hwf.
  destruct r as [u d|[v|]| |n|[n|]| |v| |n| | |i l|[n|]|v];
    cbn [request_wf] in Hwf;
    repeat match goal with
           | H : _ && _ = true |- _ => apply andb_prop in H as [? ?]
           | H : is_token _ = true |- _ => apply is_token_parts in H as [? ?]
           end;
    unfold request_to_string; cbn [command_of_request command_to_string];
    try reflexivity;
    rewrite <- ?str_app_assoc; unfold request_from_str; rewrite strip_suffix_crlf;
    rewrite ?str_app_assoc;
    repeat (rewrite split_char_token by (reflexivity || assumption || apply no_sp_show_nat));
    rewrite split_char_last by (reflexivity || assumption || apply no_sp_show_nat);
    unfold nonempty; cbn [filter];
    repeat match goal with H : String.eqb _ "" = false |- _ => rewrite H; clear H end;
    rewrite ?show_nat_nonempty; cbn;
    rewrite ?usize_from_str_show_nat by assumption; reflexivity.
Qed.

(** [Request::to_string] and [Request::from_str] are inverse on requests
    whose text arguments are single non-empty tokens without spaces and
    whose numbers fit in a 64-bit [usize]: decoding the encoding of a
    request gives it back. *)
Theorem request_to_string_roundtrip (r : Request) (Hwf : request_wf r = true) :
  request_from_str (request_to_string r) = ROk r.
Proof. exact (request_roundtrip_aux r Hwf). Qed.


Lemma request_to_string_roundtrip_witness :
  request_wf (RqTOP 3 10) = true /\ request_from_str (request_to_string (RqTOP 3 10)) = ROk (RqTOP 3 10).
Proof.
  split; [reflexivity|]. apply request_to_string_roundtrip. reflexivity.
Defined.

Lemma command_from_str_sound (s : string) (c : Command) :
  command_from_str s = ROk c -> s = command_to_string c.
Proof.
  unfold command_from_str.
  repeat match goal with
         | |- context [String.eqb s ?t] =>
             destruct (String.eqb_spec s t) as [->|_];
             [intros H; injection H as <-; reflexivity|]
         end.
  intros H; discriminate H.
Qed.

(** A request decoded from a line has the command named by the line's
    first token, and the line holds one token per argument after it. *)
Theorem request_from_str_tokens (line : string) (r : Request)
  (Hdec : request_from_str line = ROk r) :
  exists v, strip_suffix CRLF line = Some v
   /\ hd_error (nonempty (split_char SP v)) = Some (command_to_string (command_of_request r))
   /\ length (nonempty (split_char SP v)) = S (request_arity r).
Proof.
  unfold request_from_str in Hdec.
  destruct (strip_suffix CRLF line) as [v|]; [|discriminate].
  exists v; split; [reflexivity|].
  destruct (nonempty (split_char SP v)) as [|t ts]; [discriminate|].
  cbn in Hdec.
  destruct (command_from_str t) as [c| |] eqn:Ec; cbn in Hdec; try discriminate.
  apply command_from_str_sound in Ec; subst t.
  destruct c, ts as [|a1 [|a2 [|a3 ts]]]; cbn in Hdec; try discriminate;
    repeat (match type of Hdec with
            | context [match ?x with _ => _ end] => destruct x
            | context [usize_from_str ?a] => destruct (usize_from_str a)
            end; cbn in Hdec; try discriminate);
    injection Hdec as <-; split; reflexivity.
Qed.

Lemma request_from_str_tokens_witness :
  request_from_str ("TOP 1 5" ++ CRLF) = ROk (RqTOP 1 5)
  /\ exists v, strip_suffix CRLF ("TOP 1 5" ++ CRLF) = Some v
   /\ hd_error (nonempty (split_char SP v)) = Some (command_to_string (command_of_request (RqTOP 1 5)))
   /\ length (nonempty (split_char SP v)) = S (request_arity (RqTOP 1 5)).
Proof.
  split; [reflexivity|]. apply request_from_str_tokens. reflexivity.
Defined.

(** A line whose first token is not one of the command keywords is
    refused with [Command::from_str]'s error, whatever follows it. *)
Theorem request_from_str_unknown_command (line v t : string) (ts : list string)
  (Hstrip : strip_suffix CRLF line = Some v)
  (Htok : nonempty (split_char SP v) = t :: ts)
  (Hunk : forall c, t <> command_to_string c) :
  request_from_str line = RErr (InvalidCommand ("invalid command: " ++ t)).
Proof.
  unfold request_from_str. rewrite Hstrip, Htok. cbn.
  destruct (command_from_str t) as [c|e|] eqn:Ec.
  - apply command_from_str_sound in Ec. exfalso; exact (Hunk c Ec).
  - unfold command_from_str in Ec.
    repeat match type of Ec with
           | context [String.eqb t ?k] =>
               destruct (String.eqb_spec t k) as [->|_];
               [exfalso; apply (Hunk (match command_from_str k with ROk c => c | _ => USER end));
                reflexivity|]
           end.
    injection Ec as <-. reflexivity.
  - unfold command_from_str in Ec.
    repeat match type of Ec with
           | context [String.eqb t ?k] => destruct (String.eqb t k)
           end; discriminate.
Qed.

Lemma request_from_str_unknown_command_witness :
  request_from_str ("stat" ++ CRLF) = RErr (InvalidCommand ("invalid command: " ++ "stat")).
Proof.
  apply (request_from_str_unknown_command _ "stat" "stat" []); [reflexivity|reflexivity|].
  intros c; destruct c; discriminate.
Defined.

(** ** [read_line] *)

Lemma read_until_nl_split (inp : string) :
  fst (read_until_nl inp) ++ snd (read_until_nl inp) = inp
  /\ (inp <> "" -> fst (read_until_nl inp) <> "").
Proof.
  induction inp as [|c r [IH _]]; cbn; [split; [reflexivity|congruence]|].
  match goal with |- context [Ascii.eqb c ?x] => destruct (Ascii.eqb c x) end; cbn.
  - split; [reflexivity|discriminate].
  - destruct (read_until_nl r) as [a b]; cbn in *. rewrite IH. split; [reflexivity|discriminate].
Qed.

Lemma str_app_eq_nil (a b : string) : a ++ b = "" -> a = "" /\ b = "".
Proof. destruct a; cbn; [auto|discriminate]. Qed.

Lemma read_line_loop_spec (f : nat) (data inp : string) (Hf : String.length inp < f) :
  let (l, rest) := read_line_loop f data inp in
  l ++ rest = data ++ inp
  /\ (exists x, l = data ++ x)
  /\ (ends_with CRLF l = true \/ rest = "").
Proof.
  revert data inp Hf; induction f as [|f IH]; intros data inp Hf; [lia|].
  cbn [read_line_loop].
  pose proof (read_until_nl_split inp) as [Hcat Hne].
  destruct (read_until_nl inp) as [chunk rest]; cbn in Hcat, Hne.
  destruct (String.eqb_spec chunk "") as [Hc|Hc].
  - subst chunk. cbn in Hcat; subst rest.
    assert (Hinp : inp = "") by (destruct inp; [reflexivity|exfalso; now apply Hne]).
    subst inp. rewrite str_app_nil_r.
    destruct (String.eqb_spec data "") as [->|_]; cbn;
      (split; [now rewrite ?str_app_nil_r|split; [exists ""; now rewrite ?str_app_nil_r|now right]]).
  - cbn [andb orb].
    destruct (ends_with CRLF (data ++ chunk)) eqn:Hend.
    + split; [now rewrite str_app_assoc, Hcat|].
      split; [now exists chunk|now left].
    + assert (Hlen : String.length rest < f).
      { rewrite <- Hcat in Hf. rewrite str_length_app in Hf.
        destruct chunk; [congruence|cbn in Hf; lia]. }
      specialize (IH (data ++ chunk) rest Hlen).
      destruct (read_line_loop f (data ++ chunk) rest) as [l r].
      destruct IH as [H1 [[x Hx] H3]].
      split; [now rewrite H1, str_app_assoc, Hcat|].
      split; [exists (chunk ++ x); now rewrite Hx, str_app_assoc|exact H3].
Qed.

Lemma ends_with_crlf (v : string) : ends_with CRLF (v ++ CRLF) = true.
Proof. unfold ends_with. now rewrite strip_suffix_crlf. Qed.

(** *** [from_utf8_lossy] *)

Lemma str_cons_app (x : ascii) (a b : string) : String x a ++ b = String x (a ++ b).
Proof. reflexivity. Qed.

Section Ascii_byte.
Variable c : ascii.
Hypothesis Hc : nat_of_ascii c < 128.

Lemma ascii_ltb : Nat.ltb (nat_of_ascii c) 128 = true.
Proof. now apply Nat.ltb_lt. Qed.

Lemma ascii_in (lo hi : nat) : 128 <= lo -> utf8_in lo hi c = false.
Proof. intros H. unfold utf8_in. destruct (Nat.leb_spec lo (nat_of_ascii c)); [lia|reflexivity]. Qed.

Lemma ascii_cont : utf8_cont c = false.
Proof. apply ascii_in; lia. Qed.

Lemma ascii_second3 (b : ascii) : utf8_second3 b c = false.
Proof.
  unfold utf8_second3. destruct (Nat.eqb _ 224); [apply ascii_in; lia|].
  destruct (Nat.eqb _ 237); [apply ascii_in; lia|apply ascii_cont].
Qed.

Lemma ascii_second4 (b : ascii) : utf8_second4 b c = false.
Proof.
  unfold utf8_second4. destruct (Nat.eqb _ 240); [apply ascii_in; lia|].
  destruct (Nat.eqb _ 244); [apply ascii_in; lia|apply ascii_cont].
Qed.

Lemma utf8_lossy_ascii_cons (b : string) :
  utf8_lossy (String c b) = String c (utf8_lossy b).
Proof. cbn [utf8_lossy]. now rewrite ascii_ltb. Qed.

(** Decoding stops at an ASCII byte: an incomplete sequence before it is
    replaced on its own, and the byte is kept. *)
Lemma utf8_lossy_app_ascii (a b : string) :
  utf8_lossy (a ++ String c b) = utf8_lossy a ++ String c (utf8_lossy b).
Proof.
  remember (String.length a) as n eqn:Hn.
  assert (Hle : String.length a <= n) by lia. clear Hn.
  revert a Hle; induction n as [|n IH]; intros a Hle;
    (destruct a as [|x r]; [cbn [String.append]; apply utf8_lossy_ascii_cons|]);
    [cbn in Hle; lia|].
  cbn [String.append utf8_lossy].
  repeat first
    [ rewrite ascii_cont | rewrite ascii_second3 | rewrite ascii_second4
    | match goal with
      | |- context [if ?cond then _ else _] => destruct cond
      | |- context [match ?r ++ String c b with _ => _ end] =>
          destruct r as [|? ?]; cbn [String.append]
      end ];
    rewrite <- ?str_cons_app, ?utf8_lossy_ascii_cons;
    repeat (rewrite IH by (cbn in *; lia));
    rewrite ?str_app_assoc; try reflexivity.
Qed.
End Ascii_byte.

Lemma utf8_lossy_app_crlf (v : string) : utf8_lossy (v ++ CRLF) = utf8_lossy v ++ CRLF.
Proof.
  unfold CRLF. rewrite utf8_lossy_app_ascii by (cbv; lia). reflexivity.
Qed.

Lemma utf8_lossy_app_sp (u w : string) :
  utf8_lossy (u ++ " " ++ w) = utf8_lossy u ++ " " ++ utf8_lossy w.
Proof. apply utf8_lossy_app_ascii. cbv; lia. Qed.

Lemma utf8_lossy_empty (s : string) : utf8_lossy s = "" <-> s = "".
Proof.
  split; [|intros ->; reflexivity].
  destruct s as [|b r]; [reflexivity|]. cbn [utf8_lossy].
  repeat match goal with
         | |- context [if ?cond then _ else _] => destruct cond
         | |- context [match ?r with EmptyString => _ | String _ _ => _ end] =>
             destruct r
         end; discriminate.
Qed.

Lemma substring_split (s : string) (m : nat) :
  substring 0 m s ++ substring m (String.length s - m) s = s.
Proof.
  revert s; induction m as [|m IH]; intros s.
  - rewrite Nat.sub_0_r. destruct s; cbn; [reflexivity|].
    f_equal. apply substring_whole.
  - destruct s as [|c s]; [reflexivity|]. cbn. f_equal. apply IH.
Qed.

Lemma strip_suffix_some (suf s x : string) : strip_suffix suf s = Some x -> s = x ++ suf.
Proof.
  unfold strip_suffix.
  destruct (Nat.leb (String.length suf) (String.length s)) eqn:Hle; [|discriminate].
  destruct (String.eqb_spec (substring (String.length s - String.length suf)
                               (String.length suf) s) suf) as [Hsuf|]; [|discriminate].
  cbn. intros H; injection H as <-. apply Nat.leb_le in Hle.
  set (m := String.length s - String.length suf) in *.
  rewrite <- Hsuf.
  replace (String.length suf) with (String.length s - m) by (subst m; lia).
  symmetry; apply substring_split.
Qed.

(** [read_line] returns what it read, through [from_utf8_lossy]: the bytes
    of the line and the input left unread make up the whole input; the
    line is empty only at the end of the input; and the line ends with
    CRLF unless the input ran out while reading it. *)
Theorem read_line_spec (inp : string) :
  let (l, rest) := read_line inp in
  exists raw, l = utf8_lossy raw /\ raw ++ rest = inp
  /\ (l = "" <-> inp = "")
  /\ (ends_with CRLF l = true \/ rest = "").
Proof.
  unfold read_line.
  pose proof (read_line_loop_spec (S (String.length inp)) "" inp ltac:(lia)) as H.
  destruct (read_line_loop (S (String.length inp)) "" inp) as [raw rest] eqn:E.
  destruct H as [H1 [_ H3]]. cbn in H1.
  exists raw. split; [reflexivity|]. split; [exact H1|]. split.
  - rewrite utf8_lossy_empty. split; [|intros ->; cbn in E; injection E as <- _; reflexivity].
    intros ->. destruct inp as [|c r]; [reflexivity|exfalso].
    cbn [read_line_loop] in E.
    pose proof (read_until_nl_split (String c r)) as [Hcat Hne].
    destruct (read_until_nl (String c r)) as [chunk rest0]; cbn in Hcat, Hne.
    assert (Hc : chunk <> "") by (apply Hne; discriminate).
    assert (Hlen : String.length rest0 <= String.length r).
    { assert (Hl := f_equal String.length Hcat). rewrite str_length_app in Hl.
      destruct chunk; [contradiction|cbn in Hl; lia]. }
    destruct (String.eqb_spec chunk "") as [|_]; [contradiction|].
    cbn [andb orb] in E.
    destruct (ends_with CRLF ("" ++ chunk)).
    + injection E as E _. cbn in E. contradiction.
    + match type of E with read_line_loop ?f ?d rest0 = _ =>
        pose proof (read_line_loop_spec f d rest0) as H end.
      rewrite E in H. destruct H as [_ [[x Hx] _]]; [cbn; lia|].
      cbn in Hx. destruct chunk; [contradiction|discriminate].
  - destruct H3 as [H3|H3]; [left|right; exact H3].
    unfold ends_with in H3. destruct (strip_suffix CRLF raw) as [x|] eqn:Hx; [|discriminate].
    apply strip_suffix_some in Hx. subst raw.
    rewrite utf8_lossy_app_crlf. apply ends_with_crlf.
Qed.

(** ** [Handler::run] *)

(** At the end of the input [read_line] keeps returning the empty line,
    which the loop skips with [continue]: a handler whose client has
    closed the connection writes nothing more and never leaves its loop,
    however long it runs. *)
Theorem handler_spins_at_eof (fuel : nat) :
  handler_loop fuel "" = ([], Running).
Proof.
  induction fuel as [|f IH]; [reflexivity|].
  cbn [handler_loop]. change (read_line "") with ("", ""). cbn. exact IH.
Qed.

Lemma dispatch_reply_ok (req : Request) (resp : Response) :
  dispatch req = ROk resp ->
  starts_with "+OK" (response_to_string resp) = true
  /\ ends_with CRLF (response_to_string resp) = true.
Proof.
  destruct req as [| [|] | | | [|] | | | | | | | | [|] | ]; cbn [dispatch];
    intros H; try discriminate H; injection H as <-; split; vm_compute; reflexivity.
Qed.

(** Every reply the handler writes, the greeting included, is a positive
    one: it starts with "+OK" and ends with CRLF; the handler never sends
    "-ERR", whatever the client sends. *)
Theorem handler_replies_positive (h : Handler) (fuel : nat) (inp : string) :
  Forall (fun o => starts_with "+OK" o = true /\ ends_with CRLF o = true)
         (fst (handler_run h fuel inp)).
Proof.
  unfold handler_run.
  assert (Hloop : forall f i, Forall (fun o => starts_with "+OK" o = true /\ ends_with CRLF o = true)
                                     (fst (handler_loop f i))).
  { induction f as [|f IH]; intros i; cbn [handler_loop]; [constructor|].
    destruct (read_line i) as [s rest].
    destruct (String.eqb s ""); [apply IH|].
    destruct (request_from_str s) as [req| |]; cbn; try constructor.
    destruct (dispatch req) as [resp| |] eqn:Hd; cbn; try constructor.
    specialize (IH rest).
    destruct (handler_loop f rest) as [out e]; cbn in *.
    constructor; [now apply dispatch_reply_ok with req|exact IH]. }
  specialize (Hloop fuel inp).
  destruct (handler_loop fuel inp) as [out e]; cbn in *.
  constructor; [split; vm_compute; reflexivity|exact Hloop].
Qed.

(** ** [Response::to_string] *)

(** Every encoded response is framed by a final CRLF, and its status is
    its first bytes: it starts with "-ERR" exactly for [Response::ERR],
    and with "+OK" for every other variant. *)
Theorem response_to_string_status (r : Response) :
  ends_with CRLF (response_to_string r) = true
  /\ (starts_with "-ERR" (response_to_string r) = true <-> exists v, r = RsERR v)
  /\ starts_with "+OK" (response_to_string r) = negb (starts_with "-ERR" (response_to_string r)).
Proof.
  destruct r as [[v]|v| |v|[m|c ms]| |v| |v|c sz| |v|v]; unfold response_to_string;
    (split; [rewrite <- ?str_app_assoc; apply ends_with_crlf|]);
    (split; [split; intros H;
             [ vm_compute in H; first [discriminate H | eauto]
             | destruct H as [? H]; first [discriminate H | vm_compute; reflexivity]]
            | vm_compute; reflexivity]).
Qed.

(** Each reply of the handler answers the request it was computed from:
    [From<&Response> for Command] of the reply is [From<&Request> for
    Command] of the request, and never panics on it. *)
Theorem dispatch_answers_command (req : Request) (resp : Response)
  (Hd : dispatch req = ROk resp) :
  command_of_response resp = ROk (command_of_request req).
Proof.
  destruct req as [| [|] | | | [|] | | | | | | | | [|] | ]; cbn [dispatch] in Hd;
    try discriminate Hd; injection Hd as <-; reflexivity.
Qed.

Lemma dispatch_answers_command_witness :
  dispatch RqCAPA = ROk (RsCAPA ["TOP"; "USER"; "UIDL"])
  /\ command_of_response (RsCAPA ["TOP"; "USER"; "UIDL"]) = ROk (command_of_request RqCAPA).
Proof.
  split; [reflexivity|]. apply dispatch_answers_command. reflexivity.
Defined.

(** ** The server's bookkeeping *)

Lemma NoDup_remove_nat (t : nat) (l : list nat) :
  NoDup l -> NoDup (remove Nat.eq_dec t l).
Proof.
  induction l as [|a l IH]; intros Hnd; cbn; [constructor|].
  inversion Hnd as [|? ? Hnin Hnd']; subst.
  destruct (Nat.eq_dec t a); [now apply IH|].
  constructor; [|now apply IH].
  intros Hin. apply in_remove in Hin as [Hin _]. contradiction.
Qed.

Lemma server_bounds_step (s s' : Server) (ev : Event) :
  permits s + next_task s <= MAX_CONNECTIONS
  /\ Forall (fun t => t < next_task s) (live s) /\ NoDup (live s) ->
  server_step s ev = Some s' ->
  permits s' + next_task s' <= MAX_CONNECTIONS
  /\ Forall (fun t => t < next_task s') (live s') /\ NoDup (live s').
Proof.
  intros [Hb [Hlt Hnd]] Hstep.
  destruct ev; unfold server_step in Hstep.
  - destruct (accepting s && Nat.ltb 0 (permits s)) eqn:E; [|discriminate].
    apply andb_prop in E as [_ E]. apply Nat.ltb_lt in E.
    injection Hstep as <-; cbn. split; [lia|split].
    + constructor; [lia|]. eapply Forall_impl; [|exact Hlt]. cbn; intros; lia.
    + constructor; [|exact Hnd]. intros Hin.
      rewrite Forall_forall in Hlt. specialize (Hlt _ Hin). lia.
  - destruct (accepting s && Nat.ltb 0 (permits s)); [|discriminate].
    injection Hstep as <-; cbn. split; [lia|split; assumption].
  - destruct (existsb (Nat.eqb t) (live s)); [|discriminate].
    injection Hstep as <-; cbn. split; [lia|split].
    + rewrite Forall_forall in *. intros x Hx. apply in_remove in Hx as [Hx _]. auto.
    + now apply NoDup_remove_nat.
  - destruct (accepting s); [|discriminate].
    injection Hstep as <-; cbn. split; [lia|split; assumption].
  - destruct (negb (accepting s) && negb (returned s) && Nat.eqb (complete_senders s) 0);
      [|discriminate].
    injection Hstep as <-; cbn. split; [lia|split; assumption].
Qed.

(** Along any run of the server, permits left plus handlers ever spawned
    never exceed [MAX_CONNECTIONS] (so at most 1024 connections are
    handled over the server's whole life), every running handler is one
    spawned earlier, and no handler is counted twice. *)
Theorem server_reachable_bounds (evs : list Event) (s : Server)
  (Hrun : server_exec server_init evs = Some s) :
  permits s + next_task s <= MAX_CONNECTIONS
  /\ Forall (fun t => t < next_task s) (live s) /\ NoDup (live s).
Proof.
  assert (Hinit : permits server_init + next_task server_init <= MAX_CONNECTIONS
                  /\ Forall (fun t => t < next_task server_init) (live server_init)
                  /\ NoDup (live server_init))
    by (cbn; split; [unfold MAX_CONNECTIONS; lia|split; constructor]).
  revert Hinit Hrun. generalize server_init as s0.
  induction evs as [|ev evs IH]; intros s0 Hinv Hrun; cbn in Hrun.
  - injection Hrun as <-. exact Hinv.
  - destruct (server_step s0 ev) as [s1|] eqn:Hstep; [|discriminate].
    exact (IH s1 (server_bounds_step s0 s1 ev Hinv Hstep) Hrun).
Qed.

Lemma server_reachable_bounds_witness :
  server_exec server_init [EvAccept; EvAccept; EvFinish 0] =
    Some {| permits := 1022; next_task := 2; live := [1]; complete_senders := 1;
            notify_open := true; accepting := true; returned := false |}
  /\ 1022 + 2 <= MAX_CONNECTIONS.
Proof.
  split; [reflexivity|].
  exact (proj1 (server_reachable_bounds [EvAccept; EvAccept; EvFinish 0] _ eq_refl)).
Defined.

(** ** [Listener::accept] *)

(** [Listener::accept] hands back a socket exactly when one of the first
    eight calls to the listener's [accept] succeeds, and returns the error
    exactly when all eight fail. *)
Theorem listener_accept_ok_iff (attempt : nat -> bool) (fuel : nat)
  (Hfuel : 8 <= fuel) :
  (fst (listener_accept fuel attempt) = AccOk <-> exists k, k < 8 /\ attempt k = true)
  /\ (fst (listener_accept fuel attempt) = AccErr <-> forall k, k < 8 -> attempt k = false).
Proof.
  do 8 (destruct fuel as [|fuel]; [lia|]).
  unfold listener_accept; simpl.
  split_attempts;
    (split; split;
     [ intros H; first [ discriminate H
                       | match goal with E : attempt ?k = true |- _ =>
                           exists k; split; [lia|exact E] end ]
     | first [ intros _; reflexivity
             | intros [k [Hk Hak]]; do 8 (destruct k as [|k]; [congruence|]); lia ]
     | intros H; first [ discriminate H
                       | intros k Hk; do 8 (destruct k as [|k]; [assumption|]); lia ]
     | first [ intros _; reflexivity
             | intros Hall; exfalso;
               match goal with E : attempt ?k = true |- _ =>
                 rewrite Hall in E by lia; discriminate E end ] ]).
Qed.

Lemma listener_accept_ok_iff_witness :
  8 <= 8 /\ (fst (listener_accept 8 (fun _ => false)) = AccErr
             <-> forall k, k < 8 -> (fun _ => false) k = false).
Proof.
  split; [lia|]. apply (listener_accept_ok_iff (fun _ => false) 8). lia.
Defined.

(** When the [k]-th call is the first to succeed, [Listener::accept]
    returns its socket after sleeping [1, 2, ..., 2^(k-1)] time units,
    one doubling sleep per failed call. *)
Theorem listener_accept_first_success (attempt : nat -> bool) (fuel k : nat)
  (Hfuel : 8 <= fuel) (Hk : k < 8)
  (Hbefore : forall j, j < k -> attempt j = false) (Hok : attempt k = true) :
  listener_accept fuel attempt = (AccOk, firstn k [1; 2; 4; 8; 16; 32; 64]).
Proof.
  do 8 (destruct fuel as [|fuel]; [lia|]).
  unfold listener_accept; simpl.
  do 8 (destruct k as [|k];
        [ repeat match goal with
                 | |- context [attempt ?j] => (rewrite (Hbefore j) by lia) || rewrite Hok
                 end; reflexivity
        | ]).
  lia.
Qed.

Lemma listener_accept_first_success_witness :
  listener_accept 10 (fun k => Nat.eqb k 3) = (AccOk, [1; 2; 4]).
Proof.
  apply (listener_accept_first_success (fun k => Nat.eqb k 3) 10 3); [lia|lia| |reflexivity].
  intros j Hj. apply Nat.eqb_neq. lia.
Defined.

(** ** When [Request::from_str] panics *)

Lemma command_from_str_no_panic (s : string) : command_from_str s <> RPanic.
Proof.
  unfold command_from_str.
  repeat match goal with |- context [String.eqb s ?k] => destruct (String.eqb s k) end;
    discriminate.
Qed.

Lemma parse_digits_no_panic (acc : Z) (s : string) : parse_digits acc s <> RPanic.
Proof.
  revert acc; induction s as [|c s IH]; intros acc; cbn; [discriminate|].
  destruct (digit_of c); [|discriminate].
  destruct (Z.ltb _ _); [discriminate|apply IH].
Qed.

Lemma usize_from_str_no_panic (s : string) : usize_from_str s <> RPanic.
Proof.
  unfold usize_from_str; destruct s as [|c rest]; [discriminate|].
  match goal with |- match ?d with _ => _ end <> _ => destruct d as [ds|] end;
    [|discriminate].
  pose proof (parse_digits_no_panic 0 ds).
  destruct (parse_digits 0 ds); cbn; congruence.
Qed.

(** [Request::from_str] panics on exactly two kinds of line: one that
    does not end with CRLF, and one with no token before its CRLF.  On
    every other line it checks the token count before indexing, so it
    returns [Ok] or [Err] and never panics. *)
Theorem request_from_str_panic_iff (line : string) :
  request_from_str line = RPanic
  <-> strip_suffix CRLF line = None
      \/ exists v, strip_suffix CRLF line = Some v /\ nonempty (split_char SP v) = [].
Proof.
  unfold request_from_str.
  destruct (strip_suffix CRLF line) as [v|]; [|split; [now left|reflexivity]].
  destruct (nonempty (split_char SP v)) as [|t ts] eqn:Hv; cbn.
  - split; [intros _; right; eauto|reflexivity].
  - split; [|intros [H|[v' [H1 H2]]]; [discriminate|injection H1 as <-; congruence]].
    intros H; exfalso.
    destruct (command_from_str t) as [c| |] eqn:Ec; cbn in H; try discriminate.
    + destruct c, ts as [|a1 [|a2 [|a3 ts]]]; cbn in H; try discriminate;
        repeat (match type of H with
                | context [usize_from_str ?a] => destruct (usize_from_str a) eqn:?
                end; cbn in H; try discriminate);
        match goal with E : usize_from_str _ = RPanic |- _ =>
          exact (usize_from_str_no_panic _ E) end.
    + exact (command_from_str_no_panic t Ec).
Qed.

(** ** A whole session *)

Lemma no_lf_app (a b : string) : no_lf (a ++ b) = no_lf a && no_lf b.
Proof.
  induction a as [|x a IH]; simpl; [reflexivity|].
  now rewrite IH, andb_assoc.
Qed.

Lemma no_lf_digits (d : Decimal.uint) : no_lf (NilEmpty.string_of_uint d) = true.
Proof. induction d; simpl; auto. Qed.

Lemma no_lf_show_nat (n : nat) : no_lf (show_nat n) = true.
Proof.
  unfold show_nat, NilZero.string_of_uint.
  destruct (Nat.to_uint n); try reflexivity; apply no_lf_digits.
Qed.

Lemma request_encoding_line (r : Request) :
  request_no_lf r = true -> exists b, request_to_string r = b ++ CRLF /\ no_lf b = true.
Proof.
  intros Hnl.
  destruct r as [u d|[v|]| |n|[n|]| |v| |n| | |i l|[n|]|v];
    cbn [request_no_lf] in Hnl;
    unfold request_to_string; cbn [command_of_request command_to_string];
    (eexists; split; [rewrite <- ?str_app_assoc; reflexivity|]);
    rewrite ?no_lf_app, ?no_lf_show_nat; cbn;
    rewrite ?andb_true_r; auto.
Qed.

Lemma read_until_nl_line (b rest : string) :
  no_lf b = true -> read_until_nl (b ++ CRLF ++ rest) = (b ++ CRLF, rest).
Proof.
  induction b as [|c b IH]; intros Hnl; [reflexivity|].
  cbn [no_lf] in Hnl. apply andb_prop in Hnl as [Hc Hb].
  cbn [String.append read_until_nl].
  apply negb_true_iff in Hc. rewrite Hc, (IH Hb). reflexivity.
Qed.

Lemma str_app_crlf_nonempty (b : string) : String.eqb (b ++ CRLF) "" = false.
Proof. destruct b; reflexivity. Qed.

Lemma read_line_line (b rest : string) :
  no_lf b = true -> read_line (b ++ CRLF ++ rest) = (utf8_lossy (b ++ CRLF), rest).
Proof.
  intros Hnl. unfold read_line. cbn [read_line_loop].
  rewrite (read_until_nl_line b rest Hnl), str_app_crlf_nonempty.
  cbn [andb orb String.append]. rewrite ends_with_crlf. reflexivity.
Qed.

Lemma forall_bytes_app (p : ascii -> bool) (a b : string) :
  forall_bytes p (a ++ b) = forall_bytes p a && forall_bytes p b.
Proof.
  induction a as [|x a IH]; simpl; [reflexivity|].
  now rewrite IH, andb_assoc.
Qed.

Lemma utf8_lossy_ascii_str (s : string) :
  forall_bytes is_ascii s = true -> utf8_lossy s = s.
Proof.
  induction s as [|c s IH]; intros H; [reflexivity|].
  cbn [forall_bytes] in H. apply andb_prop in H as [Hc Hs].
  unfold is_ascii in Hc. cbn [utf8_lossy]. rewrite Hc, (IH Hs). reflexivity.
Qed.

Lemma ascii_digits (d : Decimal.uint) : forall_bytes is_ascii (NilEmpty.string_of_uint d) = true.
Proof. induction d; simpl; auto. Qed.

Lemma utf8_lossy_show_nat (n : nat) : utf8_lossy (show_nat n) = show_nat n.
Proof.
  apply utf8_lossy_ascii_str. unfold show_nat, NilZero.string_of_uint.
  destruct (Nat.to_uint n); try reflexivity; apply ascii_digits.
Qed.

(** [from_utf8_lossy] on the encoding of a request only touches its text
    arguments. *)
Lemma request_to_string_lossy (r : Request) :
  utf8_lossy (request_to_string r) = request_to_string (request_lossy r).
Proof.
  destruct r as [u d|[v|]| |n|[n|]| |v| |n| | |i l|[n|]|v];
    unfold request_to_string; cbn [command_of_request command_to_string request_lossy];
    repeat (rewrite utf8_lossy_app_sp || rewrite utf8_lossy_app_crlf);
    rewrite ?utf8_lossy_show_nat; reflexivity.
Qed.

Lemma utf8_lossy_forall (p : ascii -> bool) (s : string) :
  forall_bytes p REPLACEMENT = true -> forall_bytes p s = true ->
  forall_bytes p (utf8_lossy s) = true.
Proof.
  intros HR.
  remember (String.length s) as n eqn:Hn.
  assert (Hle : String.length s <= n) by lia. clear Hn.
  revert s Hle; induction n as [|n IH]; intros s Hle Hs;
    (destruct s as [|x r]; [reflexivity|]); [cbn in Hle; lia|].
  cbn [utf8_lossy].
  repeat match goal with
         | |- context [if ?cond then _ else _] => destruct cond
         | |- context [match ?r with EmptyString => _ | String _ _ => _ end] =>
             destruct r
         end;
    cbn [forall_bytes] in Hs |- *;
    repeat match goal with H : _ && _ = true |- _ => apply andb_prop in H as [? ?] end;
    rewrite ?forall_bytes_app, ?HR;
    repeat (rewrite IH by (first [cbn in *; lia | cbn [forall_bytes]; rewrite ?andb_true_iff; tauto]));
    rewrite ?andb_true_r;
    repeat match goal with H : ?b = true |- context [?b] => rewrite H end;
    reflexivity.
Qed.

Lemma no_sp_forall (s : string) : no_sp s = forall_bytes (fun c => negb (Ascii.eqb c SP)) s.
Proof. induction s as [|c s IH]; cbn; [reflexivity|now rewrite IH]. Qed.

Lemma is_token_lossy (v : string) : is_token v = true -> is_token (utf8_lossy v) = true.
Proof.
  unfold is_token. intros H. apply andb_prop in H as [Hne Hsp].
  apply andb_true_intro; split.
  - apply negb_true_iff. apply negb_true_iff in Hne.
    destruct (String.eqb_spec (utf8_lossy v) "") as [E|]; [|reflexivity].
    apply (proj1 (utf8_lossy_empty v)) in E. rewrite E in Hne. cbn in Hne. discriminate Hne.
  - rewrite no_sp_forall in *. apply utf8_lossy_forall; [reflexivity|exact Hsp].
Qed.

Lemma request_wf_lossy (r : Request) : request_wf r = true -> request_wf (request_lossy r) = true.
Proof.
  destruct r as [u d|[v|]| |n|[n|]| |v| |n| | |i l|[n|]|v]; cbn [request_wf request_lossy];
    intros H; try exact H.
  - apply andb_prop in H as [Hu Hd]. now rewrite !is_token_lossy.
  - now apply is_token_lossy.
  - now apply is_token_lossy.
  - now apply is_token_lossy.
Qed.

Lemma dispatch_lossy (r : Request) : dispatch (request_lossy r) = dispatch r.
Proof. destruct r as [u d|[v|]| |n|[n|]| |v| |n| | |i l|[n|]|v]; reflexivity. Qed.

Lemma handler_loop_eof (fuel : nat) : handler_loop fuel "" = ([], Running).
Proof.
  induction fuel as [|f IH]; [reflexivity|].
  cbn [handler_loop]. change (read_line "") with ("", ""). cbn. exact IH.
Qed.

(** A client that sends, one after the other, requests the handler
    serves (their text arguments single tokens without line feeds, their
    numbers within [usize]) gets exactly one reply per request, in order,
    each the encoding of the response [Handler::run] computes for it; the
    handler is still running when the client stops sending.  Invalid
    UTF-8 in a text argument is replaced by [read_line]'s
    [from_utf8_lossy], and none of these replies depends on it. *)
Theorem handler_serves_session (rs : list Request) (resps : list Response) (fuel : nat)
  (Hfuel : length rs <= fuel)
  (Hwf : Forall (fun r => request_wf r && request_no_lf r = true) rs)
  (Hd : Forall2 (fun r resp => dispatch r = ROk resp) rs resps) :
  handler_loop fuel (fold_right String.append "" (map request_to_string rs))
  = (map response_to_string resps, Running).
Proof.
  revert fuel Hfuel; induction Hd as [|r resp rs resps Hr Hd IH]; intros fuel Hfuel.
  - apply handler_loop_eof.
  - inversion Hwf as [|? ? Hwf1 Hwf']; subst.
    apply andb_prop in Hwf1 as [Hwfr Hnl].
    destruct fuel as [|f]; [cbn in Hfuel; lia|].
    destruct (request_encoding_line r Hnl) as [b [Hb Hbnl]].
    cbn [map fold_right handler_loop].
    rewrite Hb, str_app_assoc, (read_line_line b _ Hbnl), utf8_lossy_app_crlf,
      str_app_crlf_nonempty, <- utf8_lossy_app_crlf, <- Hb, request_to_string_lossy,
      (request_roundtrip_aux _ (request_wf_lossy r Hwfr)), dispatch_lossy, Hr.
    rewrite (IH Hwf' f) by (cbn in Hfuel; lia).
    reflexivity.
Qed.

Lemma handler_serves_session_witness :
  length [RqUSER "alice"; RqSTAT] <= 2
  /\ Forall (fun r => request_wf r && request_no_lf r = true) [RqUSER "alice"; RqSTAT]
  /\ handler_loop 2 (fold_right String.append "" (map request_to_string [RqUSER "alice"; RqSTAT]))
     = (map response_to_string [RsUSER ""; RsSTAT 10 8], Running).
Proof.
  split; [cbn; lia|split; [repeat constructor|]].
  apply handler_serves_session; [cbn; lia|repeat constructor|].
  repeat constructor.
Defined.
